(** * luminvaria: the colour pipeline and the hue-wheel search

    A shallow embedding of [luminvaria.py].

    Numbers.  Python floats are embedded twice:
    - as exact rationals [Qc] (canonical fractions, Leibniz equality): the
      idealised arithmetic in which the algebraic properties of the palette
      are stated; NaN and infinities do not exist there;
    - as IEEE binary64 values (the kernel's primitive [float]) in
      [Module Binary64], for the two converters whose arithmetic is only
      [/ 255], [* 255], comparisons and [round]: there the model is
      bit-exact.

    Strings.  A Python [str] is a [string]; each [ascii] is the code point of
    that number (U+0000 .. U+00FF).

    The [colour] package (sRGB, XYZ and CIECAM16 transforms) is not part of
    the program: it is an interface, class [Colour], and every statement about
    the search is for an arbitrary implementation of it. *)

From Stdlib Require Import ZArith QArith Qcanon Qround Qabs.
From Stdlib Require Import List String Ascii Bool Lia Lqa Sorted.
From Stdlib Require Import Floats.PrimFloat Floats.FloatOps Floats.SpecFloat.
From Stdlib Require Import Uint63.
Import ListNotations.

Local Open Scope Z_scope.

(* ================================================================== *)
(** ** Python runtime *)

(** Exceptions the embedded code can raise. *)
Inductive exn : Set :=
| ValueError
| OverflowError.

(** The outcome of a call that may raise. *)
Inductive result (A : Type) : Type :=
| Ok (a : A)
| Raise (e : exn).

Arguments Ok {A} a.
Arguments Raise {A} e.

Definition bind {A B : Type} (r : result A) (k : A -> result B) : result B :=
  match r with
  | Ok a => k a
  | Raise e => Raise e
  end.

Notation "'let*' x ':=' r 'in' k" := (bind r (fun x => k))
  (at level 10, x name, r at level 100, k at level 200).


(** *** Characters *)

Definition code (c : ascii) : Z := Z.of_N (N_of_ascii c).

(** What [int()] skips around a number: the C-locale blanks, and the two
    code points below 256 that [str.isspace] accepts and [int()] first turns
    into a blank (U+0085, U+00A0). *)
Definition is_space (c : ascii) : bool :=
  let n := code c in
  ((9 <=? n) && (n <=? 13)) || (n =? 32) || (n =? 133) || (n =? 160).

(** CPython's digit table [_PyLong_DigitValue]: 37 marks a character that is
    no digit in any base. *)
Definition digit_value (c : ascii) : Z :=
  let n := code c in
  if (48 <=? n) && (n <=? 57) then n - 48
  else if (97 <=? n) && (n <=? 122) then n - 87
  else if (65 <=? n) && (n <=? 90) then n - 55
  else 37.

Definition is_hex_digit (c : ascii) : bool := digit_value c <? 16.

(** [str.lower] on one character of the model's range (ASCII letters). *)
Definition lower_char (c : ascii) : ascii :=
  let n := code c in
  if (65 <=? n) && (n <=? 90) then ascii_of_N (Z.to_N (n + 32)) else c.

Fixpoint lower (s : string) : string :=
  match s with
  | EmptyString => EmptyString
  | String c r => String (lower_char c) (lower r)
  end.

Fixpoint string_forallb (p : ascii -> bool) (s : string) : bool :=
  match s with
  | EmptyString => true
  | String c r => p c && string_forallb p r
  end.

(** *** [int(s, 16)] *)

Fixpoint lstrip (s : string) : string :=
  match s with
  | String c r => if is_space c then lstrip r else s
  | EmptyString => s
  end.

(** An optional sign. *)
Definition split_sign (s : string) : bool * string :=
  match s with
  | String "+"%char r => (false, r)
  | String "-"%char r => (true, r)
  | _ => (false, s)
  end.

(** An optional [0x] or [0X], after which one underscore is let through. *)
Definition skip_prefix16 (s : string) : string :=
  match s with
  | String "0"%char (String c r) =>
      if (c =? "x")%char || (c =? "X")%char then
        match r with
        | String "_"%char r' => r'
        | _ => r
        end
      else s
  | _ => s
  end.

(** The digit run: hexadecimal digits with single underscores between them.
    Returns the value read, the number of digits and what follows the run;
    [None] on a doubled or trailing underscore. *)
Fixpoint scan_digits16 (s : string) (prev_underscore : bool) (acc : Z) (digits : nat)
  : option (Z * nat * string) :=
  match s with
  | String c r =>
      if (c =? "_")%char then
        if prev_underscore then None else scan_digits16 r true acc digits
      else if digit_value c <? 16 then
        scan_digits16 r false (acc * 16 + digit_value c) (S digits)
      else if prev_underscore then None else Some (acc, digits, s)
  | EmptyString => if prev_underscore then None else Some (acc, digits, s)
  end.

(** [int(s, 16)] on a string: blanks, sign, prefix, digits, blanks, end. *)
Definition int16 (s : string) : result Z :=
  let (negative, s1) := split_sign (lstrip s) in
  let s2 := skip_prefix16 s1 in
  match s2 with
  | String "_"%char _ => Raise ValueError
  | _ =>
      match scan_digits16 s2 false 0 0 with
      | None => Raise ValueError
      | Some (_, O, _) => Raise ValueError
      | Some (v, S _, rest) =>
          match lstrip rest with
          | EmptyString => Ok (if negative then - v else v)
          | String _ _ => Raise ValueError
          end
      end
  end.

(** *** [f'{val:02x}'] *)

Definition hex_char (d : Z) : ascii :=
  match get (Z.to_nat d) "0123456789abcdef" with
  | Some c => c
  | None => "?"%char
  end.

Fixpoint to_hex_fuel (fuel : nat) (n : Z) (acc : string) : string :=
  match fuel with
  | O => acc
  | S f =>
      let acc' := String (hex_char (n mod 16)) acc in
      if n / 16 =? 0 then acc' else to_hex_fuel f (n / 16) acc'
  end.

(** Lower-case hexadecimal digits of a natural number, at least one. *)
Definition to_hex (n : Z) : string :=
  to_hex_fuel (S (Z.to_nat (Z.log2 n))) n EmptyString.

Fixpoint zeros (k : nat) : string :=
  match k with
  | O => EmptyString
  | S k' => String "0"%char (zeros k')
  end.

Definition zfill (width : nat) (s : string) : string :=
  (zeros (width - String.length s) ++ s)%string.

(** Format spec [02x]: sign first, then zeros up to a total width of 2. *)
Definition format_02x (val : Z) : string :=
  if val <? 0 then String "-"%char (zfill 1 (to_hex (- val)))
  else zfill 2 (to_hex val).

(** *** [round(x)] to an integer: nearest, ties to the even integer *)

Definition round_half_even (x : Q) : Z :=
  let f := Qfloor x in
  match Qcompare (x - inject_Z f) (1 # 2) with
  | Lt => f
  | Gt => f + 1
  | Eq => if Z.even f then f else f + 1
  end.

(** *** [range(start, stop, step)]

    The program steps by 1 and by -1; a step of 0, which Python refuses,
    gives the empty list here. *)

Fixpoint range_from (n : nat) (start step : Z) : list Z :=
  match n with
  | O => []
  | S n' => start :: range_from n' (start + step) step
  end.

Definition range (start stop step : Z) : list Z :=
  if 0 <? step then range_from (Z.to_nat ((stop - start + step - 1) / step)) start step
  else if step <? 0 then range_from (Z.to_nat ((start - stop - step - 1) / - step)) start step
  else [].

(* ================================================================== *)
(** ** Exact arithmetic *)

Definition of_Z (z : Z) : Qc := Q2Qc (inject_Z z).

(** A decimal literal [n / d]. *)
Definition dec (n : Z) (d : positive) : Qc := Q2Qc (n # d).

Definition Qcleb (x y : Qc) : bool := Qle_bool x y.

(** [pow(x, n)] for an integer exponent. *)
Definition pow (x : Qc) (n : Z) : Qc :=
  match n with
  | Z0 => Q2Qc 1
  | Zpos p => Qcpower x (Pos.to_nat p)
  | Zneg p => Qcinv (Qcpower x (Pos.to_nat p))
  end.

Definition round (x : Qc) : Z := round_half_even x.

(* ================================================================== *)
(** ** Colour-space converter: the two ends written in the program *)

(** [hex_to_rgb]: three two-character slices, each read in base 16 and
    divided by 255, left to right. *)
Definition hex_to_rgb (hx : string) : result (list Qc) :=
  let* r := int16 (substring 0 2 hx) in
  let* g := int16 (substring 2 2 hx) in
  let* b := int16 (substring 4 2 hx) in
  Ok [Qcdiv (of_Z r) (of_Z 255); Qcdiv (of_Z g) (of_Z 255); Qcdiv (of_Z b) (of_Z 255)].

(** One turn of the loop of [rgb_to_hex]. *)
Definition clamp_append (clamped : list Z) (val : Qc) : list Z :=
  if Qcleb val (of_Z 0) then clamped ++ [0]
  else if Qcleb (of_Z 1) val then clamped ++ [255]
  else clamped ++ [round (Qcmult val (of_Z 255))].

Definition rgb_to_hex (rgb : list Qc) : string :=
  let clamped := fold_left clamp_append rgb [] in
  String.concat "" (map format_02x clamped).

(* ================================================================== *)
(** ** Constants of the program *)

Definition PHI : Qc :=
  dec 161803398874989484820458683436563811772030917980576286213544862270526046281890244970720720418939113748475
      100000000000000000000000000000000000000000000000000000000000000000000000000000000000000000000000000000000.

(** The induction factors of a surround (a record of the [colour] package). *)
Record InductionFactors_CIECAM16 : Set := {
  F : Qc;
  c : Qc;
  N_c : Qc
}.

(** Dim surround. *)
Definition viewing_conditions : InductionFactors_CIECAM16 :=
  {| F := dec 9 10; c := dec 59 100; N_c := dec 9 10 |}.

Definition L_A : Qc := Qcdiv (of_Z 200) (of_Z 5).
Definition Y_b : Qc := Qcdiv (of_Z 150) (of_Z 5).

Definition XYZ_w : list Qc := [dec 94811 1000; of_Z 100; dec 107304 1000].

(** A CIECAM16 specification, with the three correlates the program sets;
    the others ([Q], [M], [s], [H], [HC]) are never given nor read by it. *)
Record CAM_Specification_CIECAM16 : Set := {
  J : Qc;
  C : Qc;
  h : Qc
}.

(* ================================================================== *)
(** ** The [colour] package, as an interface *)

Class Colour : Type := {
  (** [colour.sRGB_to_XYZ(rgb)] *)
  sRGB_to_XYZ : list Qc -> list Qc;
  (** [colour.XYZ_to_sRGB(xyz, illuminant)] *)
  XYZ_to_sRGB : list Qc -> list Qc -> list Qc;
  (** [XYZ_to_CIECAM16(xyz, XYZ_w, L_A, Y_b, surround)] *)
  XYZ_to_CIECAM16 :
    list Qc -> list Qc -> Qc -> Qc -> InductionFactors_CIECAM16 -> CAM_Specification_CIECAM16;
  (** [CIECAM16_to_XYZ(specification, XYZ_w, L_A, Y_b, surround)] *)
  CIECAM16_to_XYZ :
    CAM_Specification_CIECAM16 -> list Qc -> Qc -> Qc -> InductionFactors_CIECAM16 -> list Qc;
  (** [colour.TVS_ILLUMINANTS['CIE 1964 10 Degree Standard Observer']['D65']] *)
  TVS_D65_10 : list Qc;
  (** [colour.CCS_ILLUMINANTS['CIE 1964 10 Degree Standard Observer']['D65']] *)
  CCS_D65_10 : list Qc
}.

(* ================================================================== *)
(** ** The pipeline, the gamut classifier and the palette generator *)

(** Level 0 is the most yin (dark). *)
Definition yin_level (level : Z) : Qc :=
  Qcdiv (Qcdiv (of_Z 1) (pow PHI (level + 1))) (of_Z 2).

(** The state the search leaves behind.  [announced] is the chroma printed
    by [print("Solution found for C =", c)]; the two counters are ghost
    fields (turns of the outer loop, calls of the classifier). *)
Record search_state : Set := {
  hues : list string;
  out_of_gamut : bool;
  announced : option Z;
  iterations : nat;
  classifier_calls : nat
}.

(** What [wheel] shows: the announcement, the three numbers of its last
    [print], and the matrix handed to [display_colors]. *)
Record wheel_output : Set := {
  solution : option Z;
  contrast : Qc * Qc * Qc;
  displayed : list (list string)
}.

Section Pipeline.

Context {colour : Colour}.

Definition rgb_to_xyz (rgb : list Qc) : list Qc := sRGB_to_XYZ rgb.

Definition xyz_to_ciecam16 (xyz : list Qc) : CAM_Specification_CIECAM16 :=
  XYZ_to_CIECAM16 xyz TVS_D65_10 L_A Y_b viewing_conditions.

Definition ciecam16_to_xyz (ciecam16 : CAM_Specification_CIECAM16) : list Qc :=
  CIECAM16_to_XYZ ciecam16 TVS_D65_10 L_A Y_b viewing_conditions.

Definition xyz_to_rgb (xyz : list Qc) : list Qc :=
  XYZ_to_sRGB (map (fun v => Qcdiv v (of_Z 100)) xyz) CCS_D65_10.

Definition hex_to_ciecam16 (hex_color : string) : result CAM_Specification_CIECAM16 :=
  let* rgb_color := hex_to_rgb hex_color in
  let xyz_color := rgb_to_xyz rgb_color in
  Ok (xyz_to_ciecam16 xyz_color).

Definition ciecam16_to_hex (ciecam16_color : CAM_Specification_CIECAM16) : string :=
  let xyz_color := ciecam16_to_xyz ciecam16_color in
  let rgb_color := xyz_to_rgb xyz_color in
  rgb_to_hex rgb_color.

Definition ciecam16_is_within_srgb (ciecam16_color : CAM_Specification_CIECAM16) : bool :=
  let xyz_color := ciecam16_to_xyz ciecam16_color in
  let rgb_color := xyz_to_rgb xyz_color in
  forallb (fun val => Qcleb (of_Z 0) val && Qcleb val (of_Z 1)) rgb_color.

(** The specification tried for slice [i] at chroma [c]. *)
Definition selected (slices c i : Z) : CAM_Specification_CIECAM16 :=
  {| J := of_Z 50;
     C := of_Z c;
     h := Qcmult (Qcdiv (of_Z 360) (of_Z slices)) (of_Z i) |}.

(** The inner loop, [for i in range(0, slices)], over the slices still to
    try; it stops at the first specification out of gamut. *)
Fixpoint slices_loop (slices c : Z) (todo : list Z) (hues : list string) (calls : nat)
  : list string * bool * nat :=
  match todo with
  | [] => (hues, false, calls)
  | i :: rest =>
      if ciecam16_is_within_srgb (selected slices c i) then
        slices_loop slices c rest (hues ++ [ciecam16_to_hex (selected slices c i)]) (S calls)
      else (hues, true, S calls)
  end.

(** The outer loop, [for c in range(100, 0, -1)], over the chromas still
    to try; it stops at the first chroma whose slices all pass. *)
Fixpoint chroma_loop (slices : Z) (todo : list Z) (st : search_state) : search_state :=
  match todo with
  | [] => st
  | c :: rest =>
      let '(hues, out_of_gamut, calls) :=
        slices_loop slices c (range 0 slices 1) [] (classifier_calls st) in
      let st' := {| hues := hues;
                    out_of_gamut := out_of_gamut;
                    announced := announced st;
                    iterations := S (iterations st);
                    classifier_calls := calls |} in
      if negb out_of_gamut then
        {| hues := hues;
           out_of_gamut := out_of_gamut;
           announced := Some c;
           iterations := iterations st';
           classifier_calls := calls |}
      else chroma_loop slices rest st'
  end.

Definition wheel_search (slices : Z) : search_state :=
  chroma_loop slices (range 100 0 (-1))
    {| hues := []; out_of_gamut := false; announced := None;
       iterations := O; classifier_calls := O |}.

(** Two locals of [wheel] that nothing reads. *)
Definition yin : Qc := Qcdiv (Qcdiv (Qcdiv (of_Z 1) PHI) PHI) (of_Z 2).
Definition yang : Qc := Qcminus (of_Z 1) yin.

(** The specifications of the six neutrals, in the order of the list. *)
Definition neutral_specifications : list CAM_Specification_CIECAM16 :=
  [ {| J := Qcmult (yin_level 2) (of_Z 100); C := of_Z 0; h := of_Z 0 |};
    {| J := Qcmult (yin_level 1) (of_Z 100); C := of_Z 0; h := of_Z 0 |};
    {| J := Qcmult (yin_level 0) (of_Z 100); C := of_Z 0; h := of_Z 0 |};
    {| J := Qcmult (Qcminus (of_Z 1) (yin_level 0)) (of_Z 100); C := of_Z 0; h := of_Z 0 |};
    {| J := Qcmult (Qcminus (of_Z 1) (yin_level 1)) (of_Z 100); C := of_Z 0; h := of_Z 0 |};
    {| J := Qcmult (Qcminus (of_Z 1) (yin_level 2)) (of_Z 100); C := of_Z 0; h := of_Z 0 |} ].

(** [wheel], with its local [slices] as an argument. *)
Definition wheel_with (slices : Z) : wheel_output :=
  let st := wheel_search slices in
  let neutrals := map ciecam16_to_hex neutral_specifications in
  let yinnest := yin_level 2 in
  let yangest := Qcminus (of_Z 1) yinnest in
  {| solution := announced st;
     contrast := (yangest, yinnest,
                  Qcdiv (Qcplus yangest (dec 5 100)) (Qcplus yinnest (dec 5 100)));
     displayed := [hues st; neutrals] |}.

Definition wheel : wheel_output := wheel_with 6.

End Pipeline.

(* ================================================================== *)
(** ** The two converters in IEEE binary64 *)

Module Binary64.

(** [int] to [float], exact below [2^53]. *)
Definition of_int (z : Z) : float :=
  if z <? 0 then PrimFloat.opp (PrimFloat.of_uint63 (Uint63.of_Z (- z)))
  else PrimFloat.of_uint63 (Uint63.of_Z z).

(** [round(x)]: NaN and the infinities have no integer. *)
Definition round (x : float) : result Z :=
  match Prim2SF x with
  | S754_nan => Raise ValueError
  | S754_infinity _ => Raise OverflowError
  | S754_zero _ => Ok 0
  | S754_finite s m e =>
      let mag : Q :=
        match e with
        | Zneg p => Zpos m # (2 ^ p)
        | _ => inject_Z (Zpos m * 2 ^ e)
        end in
      Ok (round_half_even (if s then Qopp mag else mag))
  end.

Definition hex_to_rgb (hx : string) : result (list float) :=
  let* r := int16 (substring 0 2 hx) in
  let* g := int16 (substring 2 2 hx) in
  let* b := int16 (substring 4 2 hx) in
  Ok [PrimFloat.div (of_int r) (of_int 255);
      PrimFloat.div (of_int g) (of_int 255);
      PrimFloat.div (of_int b) (of_int 255)].

(** The loop of [rgb_to_hex] over the channels still to clamp. *)
Fixpoint clamp_loop (rgb : list float) (clamped : list Z) : result (list Z) :=
  match rgb with
  | [] => Ok clamped
  | val :: rest =>
      if PrimFloat.leb val (of_int 0) then clamp_loop rest (clamped ++ [0])
      else if PrimFloat.leb (of_int 1) val then clamp_loop rest (clamped ++ [255])
      else
        let* k := round (PrimFloat.mul val (of_int 255)) in
        clamp_loop rest (clamped ++ [k])
  end.

Definition rgb_to_hex (rgb : list float) : result string :=
  let* clamped := clamp_loop rgb [] in
  Ok (String.concat "" (map format_02x clamped)).

End Binary64.

(* ================================================================== *)
(** ** A small implementation of the interface, to run the search on *)

(** The first channel grows with chroma and hue, the second is the
    lightness, the third the chroma alone. *)
Definition sample_colour : Colour :=
  {| sRGB_to_XYZ := fun rgb => rgb;
     XYZ_to_sRGB := fun xyz _ => xyz;
     XYZ_to_CIECAM16 := fun xyz _ _ _ _ =>
       {| J := nth 1 xyz (of_Z 0); C := nth 2 xyz (of_Z 0); h := of_Z 0 |};
     CIECAM16_to_XYZ := fun spec _ _ _ _ =>
       [Qcplus (C spec) (Qcdiv (h spec) (of_Z 10)); J spec; C spec];
     TVS_D65_10 := XYZ_w;
     CCS_D65_10 := [dec 31382 100000; dec 331 1000] |}.

(* ================================================================== *)
(** ** Support for checks over finite domains *)

Definition all_ascii : list ascii := map ascii_of_nat (seq 0 256).

(** The byte a channel becomes in [rgb_to_hex]. *)
Definition clamp_byte (val : Qc) : Z :=
  if Qcleb val (of_Z 0) then 0
  else if Qcleb (of_Z 1) val then 255
  else round (Qcmult val (of_Z 255)).

(** Clamping as the specification words it: into the interval [0, 1]. *)
Definition clamp01 (x : Qc) : Qc :=
  if Qcleb x (of_Z 0) then of_Z 0
  else if Qcleb (of_Z 1) x then of_Z 1
  else x.

(** Exactly six hexadecimal digits. *)
Definition six_hex_digits (s : string) : bool :=
  (String.length s =? 6)%nat && string_forallb is_hex_digit s.





(** The test the classifier makes on one channel. *)
Definition in_unit_interval (val : Qc) : bool :=
  Qcleb (of_Z 0) val && Qcleb val (of_Z 1).

(** Slice [i] at chroma [c] passes the classifier. *)
Definition accepts {colour : Colour} (slices c i : Z) : bool :=
  ciecam16_is_within_srgb (selected slices c i).

(** The slices of a chroma all pass the classifier. *)
Definition feasible {colour : Colour} (slices c : Z) : bool :=
  forallb (accepts slices c) (range 0 slices 1).

(** The longest prefix of a list whose elements all pass a test. *)
Fixpoint take_while {A : Type} (p : A -> bool) (l : list A) : list A :=
  match l with
  | [] => []
  | x :: r => if p x then x :: take_while p r else []
  end.

Definition result_eqb (x y : result Z) : bool :=
  match x, y with
  | Ok a, Ok b => a =? b
  | Raise ValueError, Raise ValueError => true
  | Raise OverflowError, Raise OverflowError => true
  | _, _ => false
  end.

(* ================================================================== *)
(** ** Spectral hue sampling *)

Section Spectral.

Context {colour : Colour}.

(** [colour.wavelength_to_XYZ(wavelength)]: it raises outside the range of
    the colour-matching functions. *)
Variable wavelength_to_XYZ : Z -> result (list Qc).

Definition wavelength_to_ciecam16 (wavelength : Z) : result CAM_Specification_CIECAM16 :=
  let* xyz := wavelength_to_XYZ wavelength in
  Ok (xyz_to_ciecam16 xyz).

(** The loop of [interesting_wavelengths] over the wavelengths still to
    convert. *)
Fixpoint wavelengths_loop (todo : list Z) (hues : list string) : result (list string) :=
  match todo with
  | [] => Ok hues
  | wavelength :: rest =>
      let* spec := wavelength_to_ciecam16 wavelength in
      wavelengths_loop rest (hues ++ [String "#"%char (ciecam16_to_hex spec)])
  end.

Definition wavelengths : list Z := [417; 448; 450; 483; 514; 545; 568; 599; 630].

(** [interesting_wavelengths], up to the list it hands to [display_colors]. *)
Definition interesting_wavelengths : result (list string) :=
  wavelengths_loop wavelengths [].

End Spectral.

(** The swatch of a wavelength whose tristimulus values are [xyz]. *)
Definition swatch {colour : Colour} (xyz : list Qc) : string :=
  String "#"%char (ciecam16_to_hex (xyz_to_ciecam16 xyz)).

(** An implementation of the interface that keeps a tristimulus triple in
    the three correlates, so that its inverse transform undoes its forward
    transform on triples. *)
Definition triple_colour : Colour :=
  {| sRGB_to_XYZ := fun rgb => rgb;
     XYZ_to_sRGB := fun xyz _ => xyz;
     XYZ_to_CIECAM16 := fun xyz _ _ _ _ =>
       {| J := nth 0 xyz (of_Z 0); C := nth 1 xyz (of_Z 0); h := nth 2 xyz (of_Z 0) |};
     CIECAM16_to_XYZ := fun spec _ _ _ _ => [J spec; C spec; h spec];
     TVS_D65_10 := XYZ_w;
     CCS_D65_10 := [dec 31382 100000; dec 331 1000] |}.

(* ================================================================== *)
(** ** Runs of the model *)

Example int16_ff : int16 "ff" = Ok 255. Proof. reflexivity. Qed.
Example int16_plus : int16 "+f" = Ok 15. Proof. reflexivity. Qed.
Example int16_0x : int16 "0x" = Raise ValueError. Proof. reflexivity. Qed.
Example int16_empty : int16 "" = Raise ValueError. Proof. reflexivity. Qed.
Example int16_long : int16 " -0x_dead_BEEF " = Ok (-3735928559). Proof. reflexivity. Qed.
Example format_5 : format_02x 5 = "05"%string. Proof. reflexivity. Qed.
Example format_255 : format_02x 255 = "ff"%string. Proof. reflexivity. Qed.
Example format_neg : format_02x (-1) = "-1"%string. Proof. reflexivity. Qed.
Example format_big : format_02x 4096 = "1000"%string. Proof. reflexivity. Qed.
Example range_wheel : range 5 0 (-1) = [5; 4; 3; 2; 1]. Proof. reflexivity. Qed.
Example range_up : range 0 6 1 = [0; 1; 2; 3; 4; 5]. Proof. reflexivity. Qed.
Example range_step : range 0 7 3 = [0; 3; 6]. Proof. reflexivity. Qed.
Example round_half : round (dec 1 2) = 0 /\ round (dec 3 2) = 2 /\ round (dec 5 2) = 2 /\ round (dec (-1) 2) = 0 /\ round (dec (-3) 2) = -2.
Proof. repeat split; reflexivity. Qed.
Example rgb_hex_ex : rgb_to_hex [dec 4 15; dec (-1) 3; dec 7 2] = "4400ff"%string.
Proof. vm_compute. reflexivity. Qed.
Example hex_to_rgb_long : hex_to_rgb "4488ff00" = hex_to_rgb "4488ff".
Proof. reflexivity. Qed.
Example hex_to_rgb_short : hex_to_rgb "4488" = Raise ValueError.
Proof. reflexivity. Qed.
Example binary64_4488ff :
  Binary64.hex_to_rgb "4488ff" = Ok [0x1.1111111111111p-2; 0x1.1111111111111p-1; 1]%float.
Proof. vm_compute. reflexivity. Qed.
Example binary64_nan : Binary64.rgb_to_hex [nan; 0.5; 2]%float = Raise ValueError.
Proof. vm_compute. reflexivity. Qed.
Example sample_search_6 :
  announced (@wheel_search sample_colour 6) = Some 70
  /\ iterations (@wheel_search sample_colour 6) = 31%nat
  /\ classifier_calls (@wheel_search sample_colour 6) = 126%nat.
Proof. vm_compute. repeat split. Qed.
Example sample_search_1 : announced (@wheel_search sample_colour 1) = Some 100.
Proof. vm_compute. reflexivity. Qed.

(* ================================================================== *)
(** ** Exact arithmetic: from [Qc] to [Q] *)

Lemma this_Q2Qc (q : Q) : (this (Q2Qc q) == q)%Q.
Proof. exact (Qred_correct q). Qed.

Lemma this_of_Z (z : Z) : (this (of_Z z) == inject_Z z)%Q.
Proof. exact (this_Q2Qc (inject_Z z)). Qed.

Lemma this_dec (n : Z) (d : positive) : (this (dec n d) == n # d)%Q.
Proof. exact (this_Q2Qc (n # d)). Qed.

Lemma this_mult (x y : Qc) : (this (Qcmult x y) == this x * this y)%Q.
Proof. exact (this_Q2Qc (this x * this y)). Qed.




Lemma this_inv (x : Qc) : (this (Qcinv x) == / this x)%Q.
Proof. exact (this_Q2Qc (/ this x)). Qed.

Lemma this_div (x y : Qc) : (this (Qcdiv x y) == this x / this y)%Q.
Proof. unfold Qcdiv. rewrite this_mult, this_inv. reflexivity. Qed.

Lemma Qcleb_le (x y : Qc) : Qcleb x y = true <-> (this x <= this y)%Q.
Proof. unfold Qcleb. apply Qle_bool_iff. Qed.

Lemma Qcleb_gt (x y : Qc) : Qcleb x y = false <-> (this y < this x)%Q.
Proof.
  rewrite <- not_true_iff_false, Qcleb_le. split.
  - apply Qnot_le_lt.
  - apply Qlt_not_le.
Qed.

Lemma round_half_even_Z (k : Z) : round_half_even (inject_Z k) = k.
Proof.
  unfold round_half_even. rewrite Qfloor_Z.
  replace (Qcompare (inject_Z k - inject_Z k) (1 # 2)) with Lt; [reflexivity|].
  symmetry. apply Qlt_alt.
  setoid_replace (inject_Z k - inject_Z k)%Q with 0%Q by ring.
  reflexivity.
Qed.

Lemma round_half_even_compat (x y : Q) : (x == y)%Q -> round_half_even x = round_half_even y.
Proof.
  intros E. unfold round_half_even.
  assert (Ef : Qfloor x = Qfloor y) by (rewrite E; reflexivity).
  rewrite Ef.
  assert (Ec : Qcompare (x - inject_Z (Qfloor y)) (1 # 2)
               = Qcompare (y - inject_Z (Qfloor y)) (1 # 2))
    by (rewrite E; reflexivity).
  rewrite Ec. reflexivity.
Qed.

Lemma round_half_even_bounds (x : Q) :
  Qfloor x <= round_half_even x <= Qfloor x + 1.
Proof.
  unfold round_half_even.
  destruct (Qcompare (x - inject_Z (Qfloor x)) (1 # 2)); [destruct (Z.even (Qfloor x))| |]; lia.
Qed.


(* ================================================================== *)
(** ** [rgb_to_hex], channel by channel *)

Lemma clamp_append_byte (clamped : list Z) (val : Qc) :
  clamp_append clamped val = clamped ++ [clamp_byte val].
Proof.
  unfold clamp_append, clamp_byte.
  destruct (Qcleb val (of_Z 0)); [reflexivity|].
  destruct (Qcleb (of_Z 1) val); reflexivity.
Qed.

Lemma fold_clamp_append (rgb : list Qc) :
  forall clamped, fold_left clamp_append rgb clamped = clamped ++ map clamp_byte rgb.
Proof.
  induction rgb as [|val rest IH]; intros clamped; simpl.
  - now rewrite app_nil_r.
  - rewrite IH, clamp_append_byte, <- app_assoc. reflexivity.
Qed.

Lemma rgb_to_hex_bytes (rgb : list Qc) :
  rgb_to_hex rgb = String.concat "" (map format_02x (map clamp_byte rgb)).
Proof. unfold rgb_to_hex. now rewrite fold_clamp_append. Qed.

Lemma clamp_byte_clamp01 (val : Qc) :
  clamp_byte val = round (Qcmult (clamp01 val) (of_Z 255)).
Proof.
  unfold clamp_byte, clamp01, round.
  destruct (Qcleb val (of_Z 0)); [reflexivity|].
  destruct (Qcleb (of_Z 1) val); reflexivity.
Qed.

Lemma clamp_byte_range (val : Qc) : 0 <= clamp_byte val <= 255.
Proof.
  unfold clamp_byte.
  destruct (Qcleb val (of_Z 0)) eqn:E0; [lia|].
  destruct (Qcleb (of_Z 1) val) eqn:E1; [lia|].
  apply Qcleb_gt in E0, E1. rewrite this_of_Z in E0, E1.
  change (inject_Z 0) with 0%Q in E0. change (inject_Z 1) with 1%Q in E1.
  unfold round.
  pose proof (round_half_even_bounds (Qcmult val (of_Z 255))) as B.
  pose proof (Qfloor_le (Qcmult val (of_Z 255))) as Hlo.
  assert (P : (0 <= this (Qcmult val (of_Z 255)))%Q).
  { rewrite this_mult, this_of_Z. change (inject_Z 255) with 255%Q. lra. }
  assert (U : (this (Qcmult val (of_Z 255)) < 255)%Q).
  { rewrite this_mult, this_of_Z. change (inject_Z 255) with 255%Q. lra. }
  apply Qfloor_resp_le in P. change (Qfloor 0) with 0 in P.
  assert (F : Qfloor (Qcmult val (of_Z 255)) < 255).
  { rewrite Zlt_Qlt. eapply Qle_lt_trans; [exact Hlo|exact U]. }
  lia.
Qed.

(** On a channel inside [0, 1] nothing is clamped. *)
Lemma clamp_byte_in_gamut (val : Qc) :
  Qcleb (of_Z 0) val = true -> Qcleb val (of_Z 1) = true ->
  clamp_byte val = round (Qcmult val (of_Z 255)).
Proof.
  intros H0 H1. rewrite clamp_byte_clamp01. f_equal. f_equal.
  unfold clamp01.
  destruct (Qcleb val (of_Z 0)) eqn:E0.
  - apply Qc_is_canon. apply Qcleb_le in E0, H0. apply Qle_antisym; assumption.
  - destruct (Qcleb (of_Z 1) val) eqn:E1; [|reflexivity].
    apply Qc_is_canon. apply Qcleb_le in E1, H1. apply Qle_antisym; assumption.
Qed.

(** A byte divided by 255 comes back as that byte. *)
Lemma clamp_byte_of_byte (k : Z) :
  0 <= k <= 255 -> clamp_byte (Qcdiv (of_Z k) (of_Z 255)) = k.
Proof.
  intros Hk.
  assert (V : (this (Qcdiv (of_Z k) (of_Z 255)) == inject_Z k / 255)%Q).
  { rewrite this_div, !this_of_Z. reflexivity. }
  unfold clamp_byte.
  destruct (Qcleb (Qcdiv (of_Z k) (of_Z 255)) (of_Z 0)) eqn:E0.
  - apply Qcleb_le in E0. rewrite V, this_of_Z in E0. change (inject_Z 0) with 0%Q in E0.
    destruct (Z.eq_dec k 0) as [->|N]; [reflexivity|exfalso].
    assert (0 < inject_Z k)%Q by (change 0%Q with (inject_Z 0); rewrite <- Zlt_Qlt; lia).
    assert (0 < inject_Z k / 255)%Q by (apply Qlt_shift_div_l; lra).
    lra.
  - destruct (Qcleb (of_Z 1) (Qcdiv (of_Z k) (of_Z 255))) eqn:E1.
    + apply Qcleb_le in E1. rewrite V, this_of_Z in E1. change (inject_Z 1) with 1%Q in E1.
      destruct (Z.eq_dec k 255) as [->|N]; [reflexivity|exfalso].
      assert (inject_Z k < 255)%Q by (change 255%Q with (inject_Z 255); rewrite <- Zlt_Qlt; lia).
      assert (inject_Z k / 255 < 1)%Q by (apply Qlt_shift_div_r; lra).
      lra.
    + unfold round. rewrite <- (round_half_even_Z k) at 2.
      apply round_half_even_compat.
      rewrite this_mult, V, this_of_Z. change (inject_Z 255) with 255%Q. field.
Qed.

(* ================================================================== *)
(** ** Checking a property on every character, and on every byte *)

Lemma all_ascii_complete (c : ascii) : In c all_ascii.
Proof.
  unfold all_ascii. rewrite <- (ascii_nat_embedding c).
  apply in_map, in_seq. pose proof (nat_ascii_bounded c). lia.
Qed.

Lemma forallb_all_ascii (p : ascii -> bool) :
  forallb p all_ascii = true -> forall c, p c = true.
Proof.
  intros H c. rewrite forallb_forall in H. apply H, all_ascii_complete.
Qed.

Lemma forallb_all_ascii2 (p : ascii -> ascii -> bool) :
  forallb (fun a => forallb (p a) all_ascii) all_ascii = true ->
  forall a b, p a b = true.
Proof.
  intros H a b.
  apply (forallb_all_ascii (p a)).
  apply (forallb_all_ascii (fun a => forallb (p a) all_ascii) H).
Qed.

Lemma In_range_from (n : nat) :
  forall start step (j : nat), (j < n)%nat ->
  In (start + Z.of_nat j * step) (range_from n start step).
Proof.
  induction n as [|n IH]; intros start step j Hj; [lia|].
  destruct j as [|j]; simpl range_from.
  - left. lia.
  - right. replace (start + Z.of_nat (S j) * step) with ((start + step) + Z.of_nat j * step) by lia.
    apply IH. lia.
Qed.

Lemma In_range_up (n k : Z) : 0 <= k < n -> In k (range 0 n 1).
Proof.
  intros Hk. unfold range. simpl (0 <? 1).
  replace k with (0 + Z.of_nat (Z.to_nat k) * 1) by lia.
  apply In_range_from. replace (n - 0 + 1 - 1) with n by lia.
  rewrite Z.div_1_r. lia.
Qed.

Lemma forallb_bytes (p : Z -> bool) :
  forallb p (range 0 256 1) = true -> forall k, 0 <= k <= 255 -> p k = true.
Proof.
  intros H k Hk. rewrite forallb_forall in H. apply H, In_range_up. lia.
Qed.

(* ================================================================== *)
(** ** Reading and writing one byte in hexadecimal *)

Lemma digit_value_hex (a : ascii) : is_hex_digit a = true -> 0 <= digit_value a < 16.
Proof.
  unfold is_hex_digit. intros H. apply Z.ltb_lt in H. split; [|exact H].
  unfold digit_value.
  repeat match goal with
         | |- context [if ?b then _ else _] => destruct b eqn:?
         end; lia.
Qed.

(** Two hexadecimal digits are read as the byte they spell. *)
Lemma int16_two_hex_digits (a b : ascii) :
  is_hex_digit a = true -> is_hex_digit b = true ->
  int16 (String a (String b EmptyString)) = Ok (digit_value a * 16 + digit_value b).
Proof.
  intros Ha Hb.
  pose (p := fun a b : ascii =>
    implb (is_hex_digit a && is_hex_digit b)
      match int16 (String a (String b EmptyString)) with
      | Ok k => k =? digit_value a * 16 + digit_value b
      | Raise _ => false
      end).
  assert (P : p a b = true) by (apply forallb_all_ascii2; vm_compute; reflexivity).
  unfold p in P. rewrite Ha, Hb in P. simpl in P.
  destruct (int16 (String a (String b EmptyString))) as [k|e]; [|discriminate].
  apply Z.eqb_eq in P. now subst.
Qed.

(** A byte is written as two digits, the high one first. *)
Lemma format_02x_byte (k : Z) :
  0 <= k <= 255 ->
  format_02x k = String (hex_char (k / 16)) (String (hex_char (k mod 16)) EmptyString).
Proof.
  intros Hk.
  pose (p := fun k : Z =>
    String.eqb (format_02x k)
      (String (hex_char (k / 16)) (String (hex_char (k mod 16)) EmptyString))).
  assert (P : p k = true) by (apply forallb_bytes; [vm_compute; reflexivity|exact Hk]).
  now apply String.eqb_eq in P.
Qed.

Lemma hex_char_digit_value (a : ascii) :
  is_hex_digit a = true -> hex_char (digit_value a) = lower_char a.
Proof.
  intros Ha.
  pose (p := fun a : ascii =>
    implb (is_hex_digit a) (Ascii.eqb (hex_char (digit_value a)) (lower_char a))).
  assert (P : p a = true) by (apply forallb_all_ascii; vm_compute; reflexivity).
  unfold p in P. rewrite Ha in P. simpl in P. now apply Ascii.eqb_eq in P.
Qed.

Lemma format_02x_two_hex_digits (a b : ascii) :
  is_hex_digit a = true -> is_hex_digit b = true ->
  format_02x (digit_value a * 16 + digit_value b)
  = String (lower_char a) (String (lower_char b) EmptyString).
Proof.
  intros Ha Hb.
  pose proof (digit_value_hex a Ha) as Ra. pose proof (digit_value_hex b Hb) as Rb.
  rewrite format_02x_byte by lia.
  replace ((digit_value a * 16 + digit_value b) / 16) with (digit_value a)
    by (apply Z.div_unique with (r := digit_value b); lia).
  replace ((digit_value a * 16 + digit_value b) mod 16) with (digit_value b)
    by (apply Z.mod_unique with (q := digit_value a); lia).
  now rewrite !hex_char_digit_value.
Qed.

(** What [format_02x] writes for a byte, [int16] reads back. *)
Lemma int16_format_02x (k : Z) : 0 <= k <= 255 -> int16 (format_02x k) = Ok k.
Proof.
  intros Hk.
  pose (p := fun k : Z =>
    match int16 (format_02x k) with Ok k' => k' =? k | Raise _ => false end).
  assert (P : p k = true) by (apply forallb_bytes; [vm_compute; reflexivity|exact Hk]).
  unfold p in P. destruct (int16 (format_02x k)); [|discriminate].
  apply Z.eqb_eq in P. now subst.
Qed.

Lemma format_02x_hex_digits (k : Z) :
  0 <= k <= 255 ->
  String.length (format_02x k) = 2%nat /\ string_forallb is_hex_digit (format_02x k) = true.
Proof.
  intros Hk.
  pose (p := fun k : Z =>
    (String.length (format_02x k) =? 2)%nat && string_forallb is_hex_digit (format_02x k)).
  assert (P : p k = true) by (apply forallb_bytes; [vm_compute; reflexivity|exact Hk]).
  apply andb_prop in P. destruct P as [P1 P2]. apply Nat.eqb_eq in P1. now split.
Qed.

(** In binary64 too, a byte divided by 255 is clamped back to that byte. *)
Lemma binary64_clamp_loop_byte (k : Z) (rest : list float) (clamped : list Z) :
  0 <= k <= 255 ->
  Binary64.clamp_loop (PrimFloat.div (Binary64.of_int k) (Binary64.of_int 255) :: rest) clamped
  = Binary64.clamp_loop rest (clamped ++ [k]).
Proof.
  intros Hk.
  pose (v := fun k : Z => PrimFloat.div (Binary64.of_int k) (Binary64.of_int 255)).
  pose (p := fun k : Z =>
    Bool.eqb (PrimFloat.leb (v k) (Binary64.of_int 0)) (k =? 0)
    && (Bool.eqb (PrimFloat.leb (Binary64.of_int 1) (v k)) (k =? 255)
    && match Binary64.round (PrimFloat.mul (v k) (Binary64.of_int 255)) with
       | Ok k' => k' =? k
       | Raise _ => false
       end)).
  assert (P : p k = true) by (apply forallb_bytes; [vm_compute; reflexivity|exact Hk]).
  unfold p in P. apply andb_prop in P. destruct P as [P0 P]. apply andb_prop in P.
  destruct P as [P1 P2]. apply eqb_prop in P0, P1.
  change (Binary64.clamp_loop (v k :: rest) clamped = Binary64.clamp_loop rest (clamped ++ [k])).
  cbn [Binary64.clamp_loop]. rewrite P0.
  destruct (k =? 0) eqn:E0.
  - apply Z.eqb_eq in E0. now subst.
  - rewrite P1. destruct (k =? 255) eqn:E1.
    + apply Z.eqb_eq in E1. now subst.
    + destruct (Binary64.round (PrimFloat.mul (v k) (Binary64.of_int 255))) as [k'|e];
        [|discriminate].
      apply Z.eqb_eq in P2. subst k'. reflexivity.
Qed.

Lemma six_hex_digits_inv (hx : string) :
  six_hex_digits hx = true ->
  exists a b c d e f,
    hx = String a (String b (String c (String d (String e (String f EmptyString)))))
    /\ is_hex_digit a = true /\ is_hex_digit b = true /\ is_hex_digit c = true
    /\ is_hex_digit d = true /\ is_hex_digit e = true /\ is_hex_digit f = true.
Proof.
  unfold six_hex_digits. intros H. apply andb_prop in H. destruct H as [L D].
  apply Nat.eqb_eq in L.
  destruct hx as [|a [|b [|c [|d [|e [|f [|g r]]]]]]]; try discriminate L.
  cbn [string_forallb] in D.
  repeat (apply andb_prop in D; destruct D as [? D]).
  exists a, b, c, d, e, f. repeat split; assumption.
Qed.

(* ================================================================== *)
(** ** Round trip between hexadecimal strings and RGB *)

(** C2.  For every string [hx] of exactly six hexadecimal digits,
    [hex_to_rgb hx] succeeds and [rgb_to_hex] of its result is [hx] again,
    with the digits in lower case (so [hx] itself when it is written in
    lower case).  This holds in exact arithmetic and, bit for bit, in IEEE
    binary64. *)
Theorem hex_rgb_hex_roundtrip (hx : string) :
  six_hex_digits hx = true ->
  (exists rgb, hex_to_rgb hx = Ok rgb /\ rgb_to_hex rgb = lower hx)
  /\ (exists rgb, Binary64.hex_to_rgb hx = Ok rgb /\ Binary64.rgb_to_hex rgb = Ok (lower hx)).
Proof.
  intros H. apply six_hex_digits_inv in H.
  destruct H as (a & b & c & d & e & f & -> & Ha & Hb & Hc & Hd & He & Hf).
  pose proof (digit_value_hex a Ha). pose proof (digit_value_hex b Hb).
  pose proof (digit_value_hex c Hc). pose proof (digit_value_hex d Hd).
  pose proof (digit_value_hex e He). pose proof (digit_value_hex f Hf).
  split.
  - unfold hex_to_rgb. cbn [substring].
    rewrite !int16_two_hex_digits by assumption. cbn [bind].
    eexists. split; [reflexivity|].
    rewrite rgb_to_hex_bytes. cbn [map].
    rewrite !clamp_byte_of_byte by lia.
    rewrite !format_02x_two_hex_digits by assumption.
    reflexivity.
  - unfold Binary64.hex_to_rgb. cbn [substring].
    rewrite !int16_two_hex_digits by assumption. cbn [bind].
    eexists. split; [reflexivity|].
    unfold Binary64.rgb_to_hex.
    rewrite !binary64_clamp_loop_byte by lia.
    cbn [Binary64.clamp_loop bind app map].
    rewrite !format_02x_two_hex_digits by assumption.
    reflexivity.
Qed.

Lemma hex_rgb_hex_roundtrip_4488ff :
  six_hex_digits "4488ff" = true
  /\ (exists rgb, hex_to_rgb "4488ff" = Ok rgb /\ rgb_to_hex rgb = "4488ff"%string)
  /\ (exists rgb, Binary64.hex_to_rgb "4488ff" = Ok rgb
                  /\ Binary64.rgb_to_hex rgb = Ok "4488ff"%string).
Proof.
  split; [reflexivity|].
  exact (hex_rgb_hex_roundtrip "4488ff" eq_refl).
Defined.

(* ================================================================== *)
(** ** [rgb_to_hex] on arbitrary channels *)

Lemma two_characters (s : string) :
  String.length s = 2%nat -> exists x y, s = String x (String y EmptyString).
Proof.
  destruct s as [|x [|y [|z r]]]; try discriminate. intros _. now exists x, y.
Qed.


(* ================================================================== *)
(** ** Which strings [hex_to_rgb] accepts *)




Lemma substring_0_0 (s : string) : substring 0 0 s = EmptyString.
Proof. now destruct s. Qed.




(* ================================================================== *)
(** ** The yin levels and the neutral ramp *)


Section Powers.

Variable x : Qc.
Hypothesis x_gt_1 : (1 < this x)%Q.







End Powers.






(* ================================================================== *)
(** ** The two loops of the search *)

Lemma length_range_from (n : nat) (start step : Z) :
  List.length (range_from n start step) = n.
Proof.
  revert start. induction n as [|n IH]; intros start; cbn [range_from List.length];
    [reflexivity|now rewrite IH].
Qed.

Lemma length_range_up (n : Z) : List.length (range 0 n 1) = Z.to_nat n.
Proof.
  unfold range. change (0 <? 1) with true. cbv iota. rewrite length_range_from.
  replace (n - 0 + 1 - 1) with n by lia. now rewrite Z.div_1_r.
Qed.

(** Searching downwards from [start] yields the largest hit. *)
Lemma find_range_down (p : Z -> bool) (n : nat) :
  forall start,
  match find p (range_from n start (-1)) with
  | Some c =>
      p c = true /\ start - Z.of_nat n < c <= start
      /\ forall c', c < c' <= start -> p c' = false
  | None => forall c', start - Z.of_nat n < c' <= start -> p c' = false
  end.
Proof.
  induction n as [|n IH]; intros start; cbn [range_from find].
  - intros c' Hc'. lia.
  - destruct (p start) eqn:E.
    + split; [exact E|]. split; [lia|]. intros c' Hc'. lia.
    + specialize (IH (start + -1)).
      destruct (find p (range_from n (start + -1) (-1))) as [c|].
      * destruct IH as (Pc & Rc & Mc). split; [exact Pc|]. split; [lia|].
        intros c' Hc'. destruct (Z.eq_dec c' start) as [->|N]; [exact E|].
        apply Mc. lia.
      * intros c' Hc'. destruct (Z.eq_dec c' start) as [->|N]; [exact E|].
        apply IH. lia.
Qed.

Section Search.

Context {colour : Colour}.

Variable slices : Z.

Lemma slices_loop_flag (c : Z) (todo : list Z) :
  forall hues calls,
  snd (fst (slices_loop slices c todo hues calls)) = negb (forallb (accepts slices c) todo).
Proof.
  induction todo as [|i rest IH]; intros hues calls; cbn [slices_loop forallb].
  - reflexivity.
  - unfold accepts at 1. destruct (ciecam16_is_within_srgb (selected slices c i)).
    + apply IH.
    + reflexivity.
Qed.

Lemma slices_loop_calls (c : Z) (todo : list Z) :
  forall hues calls,
  (calls <= snd (slices_loop slices c todo hues calls) <= calls + List.length todo)%nat.
Proof.
  induction todo as [|i rest IH]; intros hues calls; cbn [slices_loop List.length snd].
  - lia.
  - destruct (ciecam16_is_within_srgb (selected slices c i)).
    + specialize (IH (hues ++ [ciecam16_to_hex (selected slices c i)]) (S calls)). lia.
    + cbn [snd]. lia.
Qed.

Lemma slices_loop_hues (c : Z) (todo : list Z) :
  forall hues calls,
  forallb (accepts slices c) todo = true ->
  fst (fst (slices_loop slices c todo hues calls))
  = hues ++ map (fun i => ciecam16_to_hex (selected slices c i)) todo.
Proof.
  induction todo as [|i rest IH]; intros hues calls A; cbn [slices_loop forallb map] in *.
  - cbn [fst]. now rewrite app_nil_r.
  - apply andb_prop in A. destruct A as [Ai Ar]. unfold accepts in Ai. rewrite Ai.
    rewrite IH by exact Ar. now rewrite <- app_assoc.
Qed.

(** What the outer loop announces is the first feasible chroma of its list. *)
Lemma chroma_loop_announced (todo : list Z) :
  forall st, announced st = None ->
  announced (chroma_loop slices todo st) = find (feasible slices) todo.
Proof.
  induction todo as [|c rest IH]; intros st N; cbn [chroma_loop find].
  - exact N.
  - pose proof (slices_loop_flag c (range 0 slices 1) [] (classifier_calls st)) as Fl.
    destruct (slices_loop slices c (range 0 slices 1) [] (classifier_calls st))
      as [[hs oog] n].
    cbn [fst snd] in Fl. unfold feasible. rewrite Fl.
    destruct (forallb (accepts slices c) (range 0 slices 1)); cbn [negb].
    + reflexivity.
    + apply IH. exact N.
Qed.

(** At the announced chroma every slice has left its colour in [hues]. *)
Lemma chroma_loop_hues (todo : list Z) :
  forall st c, find (feasible slices) todo = Some c ->
  hues (chroma_loop slices todo st)
  = map (fun i => ciecam16_to_hex (selected slices c i)) (range 0 slices 1)
  /\ out_of_gamut (chroma_loop slices todo st) = false.
Proof.
  induction todo as [|c0 rest IH]; intros st c Fd; cbn [chroma_loop find] in *.
  - discriminate Fd.
  - pose proof (slices_loop_flag c0 (range 0 slices 1) [] (classifier_calls st)) as Fl.
    pose proof (slices_loop_hues c0 (range 0 slices 1) [] (classifier_calls st)) as Hu.
    destruct (slices_loop slices c0 (range 0 slices 1) [] (classifier_calls st))
      as [[hs oog] n].
    cbn [fst snd] in Fl, Hu. unfold feasible in Fd.
    rewrite Fl.
    destruct (forallb (accepts slices c0) (range 0 slices 1)); cbn [negb].
    + injection Fd as <-. cbn [hues out_of_gamut]. split; [now apply Hu|reflexivity].
    + apply IH. exact Fd.
Qed.

(** Each turn of the outer loop costs at most one call per slice. *)
Lemma chroma_loop_counts (todo : list Z) :
  forall st,
  (iterations (chroma_loop slices todo st) <= iterations st + List.length todo)%nat
  /\ (classifier_calls (chroma_loop slices todo st)
      <= classifier_calls st + List.length todo * List.length (range 0 slices 1))%nat.
Proof.
  induction todo as [|c rest IH]; intros st; cbn [chroma_loop List.length].
  - lia.
  - pose proof (slices_loop_calls c (range 0 slices 1) [] (classifier_calls st)) as Ca.
    destruct (slices_loop slices c (range 0 slices 1) [] (classifier_calls st))
      as [[hs oog] n].
    cbn [snd] in Ca.
    destruct (negb oog).
    + cbn [iterations classifier_calls]. lia.
    + match goal with
      | |- context [chroma_loop slices rest ?s] => specialize (IH s)
      end.
      cbn [iterations classifier_calls] in IH. lia.
Qed.

Lemma wheel_search_spec :
  match announced (wheel_search slices) with
  | Some c =>
      feasible slices c = true /\ 1 <= c <= 100
      /\ (forall c', c < c' <= 100 -> feasible slices c' = false)
      /\ hues (wheel_search slices)
         = map (fun i => ciecam16_to_hex (selected slices c i)) (range 0 slices 1)
  | None => forall c', 1 <= c' <= 100 -> feasible slices c' = false
  end.
Proof.
  unfold wheel_search. rewrite chroma_loop_announced by reflexivity.
  change (range 100 0 (-1)) with (range_from 100 100 (-1)).
  pose proof (find_range_down (feasible slices) 100 100) as F.
  destruct (find (feasible slices) (range_from 100 100 (-1))) as [c|] eqn:E.
  - destruct F as (Pc & Rc & Mc). split; [exact Pc|]. split; [lia|]. split; [exact Mc|].
    apply chroma_loop_hues. exact E.
  - intros c' Hc'. apply F. lia.
Qed.

End Search.

(* ================================================================== *)
(** ** The hue wheel of six slices *)

(** With six slices the hues are the multiples of 60 degrees. *)
Lemma selected_six {colour : Colour} (c i : Z) :
  selected 6 c i = {| J := of_Z 50; C := of_Z c; h := of_Z (60 * i) |}.
Proof.
  unfold selected. f_equal. apply Qc_is_canon.
  rewrite this_mult, this_div, !this_of_Z, inject_Z_mult.
  change (inject_Z 360) with 360%Q. change (inject_Z 6) with 6%Q.
  change (inject_Z 60) with 60%Q. field.
Qed.

Lemma feasible_six {colour : Colour} (c : Z) :
  feasible 6 c = true <->
  forall i, 0 <= i < 6 ->
    ciecam16_is_within_srgb {| J := of_Z 50; C := of_Z c; h := of_Z (60 * i) |} = true.
Proof.
  unfold feasible. change (range 0 6 1) with [0; 1; 2; 3; 4; 5].
  rewrite forallb_forall. split.
  - intros A i Hi. rewrite <- selected_six. apply A. cbn [In]. lia.
  - intros A i Hi. unfold accepts. rewrite selected_six. apply A. cbn [In] in Hi. lia.
Qed.

(** C1.  [wheel] announces the chroma [c] exactly when [c] is the largest
    integer of [1, 100] at which the specifications (J = 50, C = c,
    h = 60 i), for the six [i] of [0, 6), are all accepted by
    [ciecam16_is_within_srgb]; and the first row it displays is then made of
    the colours of these six specifications. *)
Theorem wheel_chroma_is_maximal {colour : Colour} (c : Z) :
  let spec := fun c i : Z => {| J := of_Z 50; C := of_Z c; h := of_Z (60 * i) |} in
  let all_in_gamut := fun c : Z =>
    forall i, 0 <= i < 6 -> ciecam16_is_within_srgb (spec c i) = true in
  (solution wheel = Some c <->
     1 <= c <= 100 /\ all_in_gamut c
     /\ forall c', 1 <= c' <= 100 -> all_in_gamut c' -> c' <= c)
  /\ (solution wheel = Some c ->
      nth 0 (displayed wheel) [] = map (fun i => ciecam16_to_hex (spec c i)) [0; 1; 2; 3; 4; 5]).
Proof.
  intros spec all_in_gamut.
  unfold wheel, wheel_with. cbn [solution displayed nth].
  pose proof (wheel_search_spec 6) as S.
  assert (FS : forall c, feasible 6 c = true <-> all_in_gamut c) by exact feasible_six.
  split; [split|].
  - intros E. rewrite E in S. destruct S as (Fc & Rc & Mc & _).
    split; [exact Rc|]. split; [apply FS; exact Fc|].
    intros c' Rc' Ac'. destruct (Z_le_gt_dec c' c) as [L|G]; [exact L|exfalso].
    apply FS in Ac'. rewrite Mc in Ac' by lia. discriminate Ac'.
  - intros (Rc & Ac & Mc). apply FS in Ac.
    destruct (announced (wheel_search 6)) as [c0|].
    + destruct S as (F0 & R0 & M0 & _). f_equal.
      assert (c <= c0).
      { destruct (Z_le_gt_dec c c0) as [L|G]; [exact L|exfalso].
        rewrite M0 in Ac by lia. discriminate Ac. }
      assert (c0 <= c) by (apply Mc; [exact R0|apply FS; exact F0]).
      lia.
    + rewrite S in Ac by exact Rc. discriminate Ac.
  - intros E. rewrite E in S. destruct S as (_ & _ & _ & Hu). rewrite Hu.
    change (range 0 6 1) with [0; 1; 2; 3; 4; 5].
    apply map_ext. intros i. now rewrite selected_six.
Qed.

Lemma wheel_chroma_is_maximal_sample :
  solution (@wheel sample_colour) = Some 70
  /\ nth 0 (displayed (@wheel sample_colour)) []
     = map (fun i => @ciecam16_to_hex sample_colour
                       {| J := of_Z 50; C := of_Z 70; h := of_Z (60 * i) |})
           [0; 1; 2; 3; 4; 5].
Proof.
  assert (E : solution (@wheel sample_colour) = Some 70) by (vm_compute; reflexivity).
  split; [exact E|].
  exact (proj2 (@wheel_chroma_is_maximal sample_colour 70) E).
Defined.

(** The only slice of a wheel of one is the first slice of a wheel of six. *)
Lemma selected_first {colour : Colour} (c : Z) : selected 1 c 0 = selected 6 c 0.
Proof.
  unfold selected.
  assert (E : Qcmult (Qcdiv (of_Z 360) (of_Z 1)) (of_Z 0)
              = Qcmult (Qcdiv (of_Z 360) (of_Z 6)) (of_Z 0)).
  { apply Qc_is_canon. rewrite !this_mult, !this_of_Z.
    change (inject_Z 0) with 0%Q. ring. }
  now rewrite E.
Qed.

(** C8.  If the search with six slices settles on a chroma, the search with
    one slice settles on a chroma too, and on one at least as large. *)
Theorem fewer_slices_no_less_chroma {colour : Colour} (c6 : Z) :
  solution (wheel_with 6) = Some c6 ->
  exists c1, solution (wheel_with 1) = Some c1 /\ c6 <= c1.
Proof.
  unfold wheel_with. cbn [solution]. intros E6.
  pose proof (wheel_search_spec 6) as S6. rewrite E6 in S6.
  destruct S6 as (F6 & R6 & _).
  assert (F1 : feasible 1 c6 = true).
  { unfold feasible in *. change (range 0 1 1) with [0].
    change (range 0 6 1) with [0; 1; 2; 3; 4; 5] in F6.
    cbn [forallb] in *. apply andb_prop in F6. destruct F6 as [F0 _].
    unfold accepts in *. now rewrite selected_first, F0. }
  pose proof (wheel_search_spec 1) as S1.
  destruct (announced (wheel_search 1)) as [c1|].
  - exists c1. split; [reflexivity|]. destruct S1 as (_ & _ & M1 & _).
    destruct (Z_le_gt_dec c6 c1) as [L|G]; [exact L|exfalso].
    rewrite M1 in F1 by lia. discriminate F1.
  - rewrite S1 in F1 by exact R6. discriminate F1.
Qed.

Lemma fewer_slices_no_less_chroma_sample :
  solution (@wheel_with sample_colour 6) = Some 70
  /\ exists c1, solution (@wheel_with sample_colour 1) = Some c1 /\ 70 <= c1.
Proof.
  assert (E : solution (@wheel_with sample_colour 6) = Some 70) by (vm_compute; reflexivity).
  split; [exact E|].
  exact (@fewer_slices_no_less_chroma sample_colour 70 E).
Defined.

(** C9.  The search is a total function: it ends, after at most 100 turns
    of its outer loop and at most [100 * slices] calls of
    [ciecam16_is_within_srgb]. *)
Theorem wheel_search_bounded {colour : Colour} (slices : Z) :
  0 <= slices ->
  (iterations (wheel_search slices) <= 100)%nat
  /\ Z.of_nat (classifier_calls (wheel_search slices)) <= 100 * slices.
Proof.
  intros Hs. unfold wheel_search.
  match goal with
  | |- context [chroma_loop slices ?l ?s] =>
      pose proof (chroma_loop_counts slices l s) as [I K]
  end.
  change (range 100 0 (-1)) with (range_from 100 100 (-1)) in *.
  rewrite length_range_from, length_range_up in *.
  cbn [iterations classifier_calls] in I, K.
  split; [lia|]. nia.
Qed.

Lemma wheel_search_bounded_sample :
  0 <= 6
  /\ (iterations (@wheel_search sample_colour 6) <= 100)%nat
  /\ Z.of_nat (classifier_calls (@wheel_search sample_colour 6)) <= 100 * 6.
Proof.
  split; [lia|]. apply (@wheel_search_bounded sample_colour 6). lia.
Defined.

(* ================================================================== *)
(** ** What reaches the display *)

Lemma clamp01_in_gamut (val : Qc) : in_unit_interval val = true -> clamp01 val = val.
Proof.
  unfold in_unit_interval, clamp01. intros H. apply andb_prop in H. destruct H as [H0 H1].
  destruct (Qcleb val (of_Z 0)) eqn:E0.
  - apply Qc_is_canon. apply Qcleb_le in E0, H0. apply Qle_antisym; assumption.
  - destruct (Qcleb (of_Z 1) val) eqn:E1; [|reflexivity].
    apply Qc_is_canon. apply Qcleb_le in E1, H1. apply Qle_antisym; assumption.
Qed.

(** On channels that are all inside [0, 1], [rgb_to_hex] only scales and
    rounds. *)
Lemma rgb_to_hex_in_gamut (rgb : list Qc) :
  forallb in_unit_interval rgb = true ->
  rgb_to_hex rgb
  = String.concat "" (map (fun val => format_02x (round (Qcmult val (of_Z 255)))) rgb)
  /\ map clamp01 rgb = rgb.
Proof.
  intros G. rewrite rgb_to_hex_bytes, map_map. rewrite forallb_forall in G.
  split.
  - f_equal. apply map_ext_in. intros val Hin.
    rewrite clamp_byte_clamp01, clamp01_in_gamut by (apply G; exact Hin). reflexivity.
  - rewrite <- (map_id rgb) at 2. apply map_ext_in. intros val Hin.
    apply clamp01_in_gamut, G, Hin.
Qed.

(** C10.  When [wheel] announces a chroma [c], the first row it displays
    has exactly six strings; the i-th is [ciecam16_to_hex] of the
    specification (J = 50, C = c, h = 60 i), which
    [ciecam16_is_within_srgb] accepts: its channels are all inside [0, 1],
    clamping leaves them as they are, and [rgb_to_hex] only scales and
    rounds them. *)
Theorem wheel_row_in_gamut {colour : Colour} (c : Z) :
  solution wheel = Some c ->
  let row := nth 0 (displayed wheel) [] in
  List.length row = 6%nat
  /\ forall i, (i < 6)%nat ->
       let spec := {| J := of_Z 50; C := of_Z c; h := of_Z (60 * Z.of_nat i) |} in
       let rgb := xyz_to_rgb (ciecam16_to_xyz spec) in
       nth i row EmptyString = ciecam16_to_hex spec
       /\ ciecam16_is_within_srgb spec = true
       /\ Forall (fun val => (of_Z 0 <= val)%Qc /\ (val <= of_Z 1)%Qc) rgb
       /\ map clamp01 rgb = rgb
       /\ ciecam16_to_hex spec
          = String.concat ""
              (map (fun val => format_02x (round (Qcmult val (of_Z 255)))) rgb).
Proof.
  unfold wheel, wheel_with. cbn [solution displayed nth]. intros E.
  pose proof (wheel_search_spec 6) as S. rewrite E in S.
  destruct S as (Fc & _ & _ & Hu). rewrite Hu.
  change (range 0 6 1) with [0; 1; 2; 3; 4; 5].
  split; [reflexivity|].
  intros i Hi. cbv zeta.
  set (spec := {| J := of_Z 50; C := of_Z c; h := of_Z (60 * Z.of_nat i) |}).
  set (rgb := xyz_to_rgb (ciecam16_to_xyz spec)).
  assert (A : ciecam16_is_within_srgb spec = true).
  { apply (proj1 (feasible_six c) Fc). lia. }
  assert (G : forallb in_unit_interval rgb = true) by exact A.
  destruct (rgb_to_hex_in_gamut rgb G) as [Hx Cl].
  split; [|split; [exact A|split; [|split; [exact Cl|exact Hx]]]].
  - do 6 (destruct i as [|i]; [cbn [map nth]; now rewrite selected_six|]). lia.
  - apply Forall_forall. intros val Hin. rewrite forallb_forall in G.
    specialize (G val Hin). unfold in_unit_interval in G. apply andb_prop in G.
    destruct G as [G0 G1]. split; unfold Qcle; now apply Qcleb_le.
Qed.

Lemma wheel_row_in_gamut_sample :
  solution (@wheel sample_colour) = Some 70
  /\ List.length (nth 0 (displayed (@wheel sample_colour)) []) = 6%nat.
Proof.
  assert (E : solution (@wheel sample_colour) = Some 70) by (vm_compute; reflexivity).
  split; [exact E|].
  exact (proj1 (@wheel_row_in_gamut sample_colour 70 E)).
Defined.

(* ================================================================== *)
(** ** The pipeline on one colour *)

(** [hex_to_rgb("4488ff")] is (4/15, 8/15, 1): about (0.267, 0.533, 1.0). *)
Lemma hex_to_rgb_4488ff :
  hex_to_rgb "4488ff" = Ok [dec 4 15; dec 8 15; of_Z 1]
  /\ (dec 2665 10000 < dec 4 15 < dec 2675 10000)%Qc
  /\ (dec 5325 10000 < dec 8 15 < dec 5335 10000)%Qc.
Proof.
  split.
  - unfold hex_to_rgb. cbn [substring].
    change (int16 "44") with (Ok 68). change (int16 "88") with (Ok 136).
    change (int16 "ff") with (Ok 255). cbn [bind].
    do 2 f_equal; [|f_equal; [|f_equal]]; apply Qc_is_canon; reflexivity.
  - repeat split; reflexivity.
Qed.

(** Through the appearance model and back: if the package's inverse
    transform undoes its forward transform, the six calls of the pipeline
    amount to the two sRGB transforms around a division of XYZ by 100. *)
Lemma hex_ciecam16_hex {colour : Colour} (hex_color : string) (rgb : list Qc) :
  (forall xyz XYZ_w L_A Y_b surround,
     CIECAM16_to_XYZ (XYZ_to_CIECAM16 xyz XYZ_w L_A Y_b surround) XYZ_w L_A Y_b surround = xyz) ->
  hex_to_rgb hex_color = Ok rgb ->
  (let* spec := hex_to_ciecam16 hex_color in Ok (ciecam16_to_hex spec))
  = Ok (rgb_to_hex
          (XYZ_to_sRGB (map (fun v => Qcdiv v (of_Z 100)) (sRGB_to_XYZ rgb)) CCS_D65_10)).
Proof.
  intros Inverse E.
  unfold hex_to_ciecam16, ciecam16_to_hex, ciecam16_to_xyz, xyz_to_ciecam16,
    xyz_to_rgb, rgb_to_xyz.
  rewrite E. cbn [bind]. now rewrite Inverse.
Qed.

(* ================================================================== *)
(** ** More on the two converters *)

Lemma string_append_nil_r (s : string) : (s ++ "")%string = s.
Proof. induction s as [|ch r IH]; cbn; [reflexivity|now rewrite IH]. Qed.

Lemma string_append_assoc (a b c : string) : ((a ++ b) ++ c)%string = (a ++ (b ++ c))%string.
Proof. induction a as [|ch r IH]; cbn; [reflexivity|now rewrite IH]. Qed.

Lemma string_length_append (a b : string) :
  String.length (a ++ b) = (String.length a + String.length b)%nat.
Proof. induction a as [|ch r IH]; cbn; [reflexivity|now rewrite IH]. Qed.

Lemma string_forallb_append (p : ascii -> bool) (a b : string) :
  string_forallb p (a ++ b) = string_forallb p a && string_forallb p b.
Proof.
  induction a as [|ch r IH]; cbn; [reflexivity|]. now rewrite IH, andb_assoc.
Qed.

Lemma concat_empty_cons (x : string) (l : list string) :
  String.concat "" (x :: l) = (x ++ String.concat "" l)%string.
Proof.
  destruct l as [|y r]; cbn [String.concat].
  - now rewrite string_append_nil_r.
  - reflexivity.
Qed.

Lemma concat_empty_app (l1 l2 : list string) :
  String.concat "" (l1 ++ l2) = (String.concat "" l1 ++ String.concat "" l2)%string.
Proof.
  induction l1 as [|x r IH].
  - reflexivity.
  - rewrite <- app_comm_cons, !concat_empty_cons, IH. now rewrite string_append_assoc.
Qed.

(** X1.  [rgb_to_hex] writes its channels one after the other, two
    hexadecimal digits each: the result for a sequence in two parts is the
    two results put together, and a sequence of [n] channels gives [2 n]
    hexadecimal digits. *)
Theorem rgb_to_hex_layout (rgb1 rgb2 : list Qc) :
  rgb_to_hex (rgb1 ++ rgb2) = (rgb_to_hex rgb1 ++ rgb_to_hex rgb2)%string
  /\ String.length (rgb_to_hex rgb1) = (2 * List.length rgb1)%nat
  /\ string_forallb is_hex_digit (rgb_to_hex rgb1) = true.
Proof.
  split.
  - rewrite !rgb_to_hex_bytes, !map_app. apply concat_empty_app.
  - rewrite rgb_to_hex_bytes.
    induction rgb1 as [|val rest [IHl IHd]]; [split; reflexivity|].
    cbn [map List.length]. rewrite concat_empty_cons.
    destruct (format_02x_hex_digits _ (clamp_byte_range val)) as [L D].
    rewrite string_length_append, string_forallb_append, L, D, IHl, IHd.
    split; [lia|reflexivity].
Qed.

(** Rounding keeps the order of what it rounds. *)
Lemma round_half_even_monotone (x y : Q) :
  (x <= y)%Q -> round_half_even x <= round_half_even y.
Proof.
  intros Hxy.
  pose proof (Qfloor_resp_le x y Hxy) as Hf.
  pose proof (round_half_even_bounds x) as Bx.
  pose proof (round_half_even_bounds y) as By.
  destruct (Z.eq_dec (Qfloor x) (Qfloor y)) as [E|N]; [|lia].
  clear Bx By. unfold round_half_even. rewrite E.
  destruct (Qcompare_spec (x - inject_Z (Qfloor y)) (1 # 2)) as [Cx|Cx|Cx];
    destruct (Qcompare_spec (y - inject_Z (Qfloor y)) (1 # 2)) as [Cy|Cy|Cy];
    try (destruct (Z.even (Qfloor y)); lia);
    exfalso; lra.
Qed.

Lemma clamp_byte_monotone (x y : Qc) : (x <= y)%Qc -> clamp_byte x <= clamp_byte y.
Proof.
  unfold Qcle. intros Hxy.
  pose proof (clamp_byte_range x) as Rx. pose proof (clamp_byte_range y) as Ry.
  unfold clamp_byte in *.
  destruct (Qcleb x (of_Z 0)) eqn:X0; [lia|].
  destruct (Qcleb y (of_Z 0)) eqn:Y0.
  { exfalso. apply Qcleb_gt in X0. apply Qcleb_le in Y0. lra. }
  destruct (Qcleb (of_Z 1) y) eqn:Y1.
  { destruct (Qcleb (of_Z 1) x); lia. }
  destruct (Qcleb (of_Z 1) x) eqn:X1.
  { exfalso. apply Qcleb_gt in Y1. apply Qcleb_le in X1. lra. }
  unfold round. apply round_half_even_monotone.
  rewrite !this_mult, this_of_Z. change (inject_Z 255) with 255%Q. lra.
Qed.

Lemma rgb_to_hex_one (val : Qc) : rgb_to_hex [val] = format_02x (clamp_byte val).
Proof. now rewrite rgb_to_hex_bytes. Qed.

(** X2.  The byte [rgb_to_hex] writes for a channel grows with the channel:
    of two channels, the larger one never gets the smaller byte. *)
Theorem rgb_to_hex_monotone (x y : Qc) :
  (x <= y)%Qc ->
  exists kx ky,
    int16 (rgb_to_hex [x]) = Ok kx /\ int16 (rgb_to_hex [y]) = Ok ky /\ kx <= ky.
Proof.
  intros Hxy. exists (clamp_byte x), (clamp_byte y).
  rewrite !rgb_to_hex_one, !int16_format_02x by apply clamp_byte_range.
  split; [reflexivity|]. split; [reflexivity|]. now apply clamp_byte_monotone.
Qed.

Lemma rgb_to_hex_monotone_sample :
  (dec 1 4 <= dec 1 2)%Qc
  /\ exists kx ky,
       int16 (rgb_to_hex [dec 1 4]) = Ok kx /\ int16 (rgb_to_hex [dec 1 2]) = Ok ky
       /\ kx <= ky.
Proof.
  assert (H : (dec 1 4 <= dec 1 2)%Qc) by (unfold Qcle; cbn; lra).
  split; [exact H|]. exact (rgb_to_hex_monotone (dec 1 4) (dec 1 2) H).
Defined.

(** What [hex_to_rgb] reads from what [rgb_to_hex] wrote for three
    channels: the three bytes, each over 255. *)
Lemma hex_to_rgb_of_rgb_to_hex (r g b : Qc) :
  hex_to_rgb (rgb_to_hex [r; g; b])
  = Ok [Qcdiv (of_Z (clamp_byte r)) (of_Z 255);
        Qcdiv (of_Z (clamp_byte g)) (of_Z 255);
        Qcdiv (of_Z (clamp_byte b)) (of_Z 255)].
Proof.
  rewrite rgb_to_hex_bytes. cbn [map String.concat].
  pose proof (int16_format_02x _ (clamp_byte_range r)) as Ir.
  pose proof (int16_format_02x _ (clamp_byte_range g)) as Ig.
  pose proof (int16_format_02x _ (clamp_byte_range b)) as Ib.
  destruct (two_characters _ (proj1 (format_02x_hex_digits _ (clamp_byte_range r))))
    as (r1 & r2 & Er).
  destruct (two_characters _ (proj1 (format_02x_hex_digits _ (clamp_byte_range g))))
    as (g1 & g2 & Eg).
  destruct (two_characters _ (proj1 (format_02x_hex_digits _ (clamp_byte_range b))))
    as (b1 & b2 & Eb).
  rewrite Er in *. rewrite Eg in *. rewrite Eb in *.
  unfold hex_to_rgb. cbn [String.append substring].
  rewrite Ir, Ig, Ib. reflexivity.
Qed.



(** X4.  Quantising twice changes nothing: the channels read back from
    [rgb_to_hex] are written by [rgb_to_hex] as the same string. *)
Theorem rgb_to_hex_idempotent (r g b : Qc) :
  exists rgb',
    hex_to_rgb (rgb_to_hex [r; g; b]) = Ok rgb'
    /\ rgb_to_hex rgb' = rgb_to_hex [r; g; b].
Proof.
  eexists. split; [apply hex_to_rgb_of_rgb_to_hex|].
  rewrite !rgb_to_hex_bytes. cbn [map].
  now rewrite !clamp_byte_of_byte by apply clamp_byte_range.
Qed.

(** X5.  [hex_to_rgb] looks at the first six characters only. *)
Theorem hex_to_rgb_first_six (hx : string) :
  hex_to_rgb hx = hex_to_rgb (substring 0 6 hx).
Proof.
  destruct hx as [|a [|b [|c [|d [|e [|f r]]]]]];
    unfold hex_to_rgb; cbn [substring]; rewrite ?substring_0_0; reflexivity.
Qed.

Lemma length_substring_le (s : string) :
  forall n m, (String.length (substring n m s) <= m)%nat.
Proof.
  induction s as [|ch r IH]; intros [|n] [|m]; cbn [substring String.length]; try lia.
  - specialize (IH 0%nat m). lia.
  - apply (IH n 0%nat).
  - apply (IH n (S m)).
Qed.

Lemma substring_lower (s : string) :
  forall n m, substring n m (lower s) = lower (substring n m s).
Proof.
  induction s as [|ch r IH]; intros [|n] [|m]; cbn [substring lower]; try reflexivity.
  - now rewrite IH.
  - apply IH.
  - apply IH.
Qed.

(** A property of every string of at most two characters, by cases. *)
Lemma short_string_check (p : string -> bool) :
  p EmptyString = true ->
  forallb (fun x => p (String x EmptyString)) all_ascii = true ->
  forallb (fun x => forallb (fun y => p (String x (String y EmptyString))) all_ascii)
    all_ascii = true ->
  forall s, (String.length s <= 2)%nat -> p s = true.
Proof.
  intros P0 P1 P2 s L.
  destruct s as [|x [|y [|z r]]]; cbn [String.length] in L; try lia.
  - exact P0.
  - exact (forallb_all_ascii _ P1 x).
  - exact (forallb_all_ascii2 (fun x y => p (String x (String y EmptyString))) P2 x y).
Qed.

Lemma int16_lower_short (s : string) :
  (String.length s <= 2)%nat -> int16 (lower s) = int16 s.
Proof.
  intros L.
  pose (p := fun s : string => result_eqb (int16 (lower s)) (int16 s)).
  assert (P : p s = true)
    by (apply short_string_check; [vm_compute; reflexivity ..|exact L]).
  unfold p, result_eqb in P.
  destruct (int16 (lower s)) as [k1|[]], (int16 s) as [k2|[]]; try discriminate P;
    try reflexivity.
  apply Z.eqb_eq in P. now subst.
Qed.

(** X6.  [hex_to_rgb] does not tell upper case from lower case: a string and
    its lower-case form give the same result, be it channels or an error. *)
Theorem hex_to_rgb_ignores_case (hx : string) :
  hex_to_rgb (lower hx) = hex_to_rgb hx.
Proof.
  unfold hex_to_rgb. rewrite !substring_lower.
  now rewrite !int16_lower_short by apply length_substring_le.
Qed.

(** Two characters spell an integer between -15 and 255. *)
Lemma int16_short_range (s : string) (k : Z) :
  (String.length s <= 2)%nat -> int16 s = Ok k -> -15 <= k <= 255.
Proof.
  intros L E.
  pose (p := fun s : string =>
    match int16 s with
    | Ok k => (-15 <=? k) && (k <=? 255)
    | Raise _ => true
    end).
  assert (P : p s = true)
    by (apply short_string_check; [vm_compute; reflexivity ..|exact L]).
  unfold p in P. rewrite E in P. apply andb_prop in P. destruct P as [P1 P2].
  apply Z.leb_le in P1, P2. lia.
Qed.

Lemma byte_over_255_range (k : Z) :
  -15 <= k <= 255 ->
  (dec (-1) 17 <= Qcdiv (of_Z k) (of_Z 255))%Qc /\ (Qcdiv (of_Z k) (of_Z 255) <= of_Z 1)%Qc.
Proof.
  intros Hk. unfold Qcle. rewrite this_div, this_dec, !this_of_Z.
  change (inject_Z 255) with 255%Q. change (inject_Z 1) with 1%Q.
  assert (L : (inject_Z (-15) <= inject_Z k)%Q) by (rewrite <- Zle_Qle; lia).
  assert (U : (inject_Z k <= inject_Z 255)%Q) by (rewrite <- Zle_Qle; lia).
  change (inject_Z (-15)) with (-15 # 1)%Q in L. change (inject_Z 255) with 255%Q in U.
  unfold Qdiv. setoid_replace (/ 255)%Q with (1 # 255)%Q by reflexivity.
  split; lra.
Qed.

(** X7.  Whatever string it is given, when [hex_to_rgb] succeeds it returns
    exactly three channels, none above 1 and none below -1/17 (a sign
    leaves room for one digit: -15/255). *)
Theorem hex_to_rgb_channel_range (hx : string) (rgb : list Qc) :
  hex_to_rgb hx = Ok rgb ->
  List.length rgb = 3%nat
  /\ Forall (fun val => (dec (-1) 17 <= val)%Qc /\ (val <= of_Z 1)%Qc) rgb.
Proof.
  unfold hex_to_rgb. intros E.
  destruct (int16 (substring 0 2 hx)) as [r|] eqn:Er; [|discriminate E].
  destruct (int16 (substring 2 2 hx)) as [g|] eqn:Eg; [|discriminate E].
  destruct (int16 (substring 4 2 hx)) as [b|] eqn:Eb; [|discriminate E].
  cbn [bind] in E. injection E as <-.
  split; [reflexivity|].
  repeat constructor;
    apply byte_over_255_range;
    eapply int16_short_range; try eassumption; apply length_substring_le.
Qed.

Lemma hex_to_rgb_channel_range_sample :
  exists rgb,
    hex_to_rgb "-f88ff" = Ok rgb
    /\ List.length rgb = 3%nat
    /\ Forall (fun val => (dec (-1) 17 <= val)%Qc /\ (val <= of_Z 1)%Qc) rgb.
Proof.
  eexists. split; [reflexivity|].
  apply (hex_to_rgb_channel_range "-f88ff"). reflexivity.
Defined.

(* ================================================================== *)
(** ** More on the yin levels *)

Section Ratios.

Variable x : Qc.
Hypothesis x_gt_1 : (1 < this x)%Q.




End Ratios.





(* ================================================================== *)
(** ** More on the search *)

Lemma take_while_length_lt {A : Type} (p : A -> bool) (l : list A) :
  forallb p l = false -> (List.length (take_while p l) < List.length l)%nat.
Proof.
  induction l as [|x r IH]; cbn [forallb take_while List.length]; [discriminate|].
  destruct (p x); cbn [andb List.length]; [|lia]. intros F. specialize (IH F). lia.
Qed.

Lemma take_while_all {A : Type} (p : A -> bool) (l : list A) :
  forallb p l = true -> take_while p l = l.
Proof.
  induction l as [|x r IH]; cbn [forallb take_while]; [reflexivity|].
  destruct (p x); cbn [andb]; [|discriminate]. intros F. now rewrite IH.
Qed.



Lemma range_up_nil (n : Z) : n <= 0 -> range 0 n 1 = [].
Proof.
  intros Hn. unfold range. change (0 <? 1) with true. cbv iota.
  replace (n - 0 + 1 - 1) with n by lia. rewrite Z.div_1_r.
  replace (Z.to_nat n) with O by lia. reflexivity.
Qed.

Section SearchCounts.

Context {colour : Colour}.

Variable slices : Z.

(** The inner loop, in full: the colours of the slices that passed before
    the first failure, whether there was one, and one call per slice
    tried. *)
Lemma slices_loop_exact (c : Z) (todo : list Z) :
  forall hues calls,
  slices_loop slices c todo hues calls
  = (hues ++ map (fun i => ciecam16_to_hex (selected slices c i))
                 (take_while (accepts slices c) todo),
     negb (forallb (accepts slices c) todo),
     if forallb (accepts slices c) todo
     then (calls + List.length todo)%nat
     else (calls + S (List.length (take_while (accepts slices c) todo)))%nat).
Proof.
  induction todo as [|i rest IH]; intros hues calls;
    cbn [slices_loop take_while forallb map List.length].
  - now rewrite app_nil_r, Nat.add_0_r.
  - change (ciecam16_is_within_srgb (selected slices c i)) with (accepts slices c i).
    destruct (accepts slices c i).
    + rewrite IH. cbn [andb map List.length]. rewrite <- app_assoc. cbn [app].
      destruct (forallb (accepts slices c) rest); f_equal; lia.
    + cbn [andb negb map List.length]. rewrite app_nil_r. f_equal; lia.
Qed.

(** When no chroma of its list is feasible, the outer loop ends on the
    attempt at the last one. *)
Lemma chroma_loop_exhausted (todo : list Z) :
  forall st, todo <> [] -> find (feasible slices) todo = None ->
  let final := chroma_loop slices todo st in
  hues final
  = map (fun i => ciecam16_to_hex (selected slices (last todo 0) i))
        (take_while (accepts slices (last todo 0)) (range 0 slices 1))
  /\ out_of_gamut final = true
  /\ announced final = announced st
  /\ iterations final = (iterations st + List.length todo)%nat.
Proof.
  induction todo as [|c rest IH]; intros st NE Fd; [now elim NE|].
  cbn [find] in Fd. destruct (feasible slices c) eqn:Fc; [discriminate Fd|].
  cbn [chroma_loop]. rewrite slices_loop_exact. unfold feasible in Fc. rewrite Fc.
  cbn [negb]. destruct rest as [|c' rest'].
  - cbn [chroma_loop last hues out_of_gamut announced iterations List.length].
    repeat split. lia.
  - match goal with
    | |- context [chroma_loop slices (c' :: rest') ?s] =>
        specialize (IH s ltac:(discriminate) Fd)
    end.
    cbv zeta in IH. destruct IH as (Hh & Ho & Ha & Hi).
    change (last (c :: c' :: rest') 0) with (last (c' :: rest') 0).
    cbv zeta. rewrite Hh, Ho, Ha, Hi.
    cbn [announced iterations List.length]. repeat split. lia.
Qed.

(** When the outer loop, going down from [start], settles on [c], it has
    made one turn per chroma from [start] down to [c]; each turn before the
    last cost at least one call, the last one a call per slice. *)
Lemma chroma_loop_settled (n : nat) :
  forall start st c,
  find (feasible slices) (range_from n start (-1)) = Some c ->
  let final := chroma_loop slices (range_from n start (-1)) st in
  let per_turn := Z.of_nat (List.length (range 0 slices 1)) in
  Z.of_nat (iterations final) = Z.of_nat (iterations st) + (start - c + 1)
  /\ Z.of_nat (classifier_calls st) + (start - c) + per_turn
     <= Z.of_nat (classifier_calls final)
     <= Z.of_nat (classifier_calls st) + (start - c + 1) * per_turn.
Proof.
  induction n as [|n IH]; intros start st c Fd; cbn [range_from find] in Fd;
    [discriminate Fd|].
  cbn [range_from chroma_loop]. rewrite slices_loop_exact.
  destruct (feasible slices start) eqn:Fs.
  - injection Fd as <-. unfold feasible in Fs. rewrite Fs.
    cbn [negb iterations classifier_calls]. cbv zeta. lia.
  - pose proof (find_range_down (feasible slices) n (start + -1)) as R.
    rewrite Fd in R. destruct R as (_ & Rc & _).
    pose proof Fs as Fs'. unfold feasible in Fs'. rewrite Fs'. cbn [negb].
    pose proof (take_while_length_lt _ _ Fs') as Lt.
    match goal with
    | |- context [chroma_loop slices _ ?s] => specialize (IH (start + -1) s c Fd)
    end.
    cbv zeta in IH. cbn [iterations classifier_calls] in IH.
    destruct IH as (Hi & Hlo & Hhi). cbv zeta.
    split; [lia|]. split; nia.
Qed.

End SearchCounts.

Lemma wheel_search_find {colour : Colour} (slices : Z) :
  announced (wheel_search slices) = find (feasible slices) (range_from 100 100 (-1)).
Proof. unfold wheel_search. now rewrite chroma_loop_announced. Qed.

(** X10.  When no chroma from 100 down to 1 puts all the slices in gamut,
    [wheel] announces nothing and has made its 100 attempts; the hue row it
    displays is what the last attempt, at chroma 1, had gathered before its
    first slice out of gamut: the colours of the leading slices that
    passed, fewer than [slices] of them. *)
Theorem wheel_without_solution {colour : Colour} (slices : Z) :
  solution (wheel_with slices) = None ->
  let passed := take_while (accepts slices 1) (range 0 slices 1) in
  nth 0 (displayed (wheel_with slices)) []
  = map (fun i => ciecam16_to_hex (selected slices 1 i)) passed
  /\ Z.of_nat (List.length passed) < slices
  /\ out_of_gamut (wheel_search slices) = true
  /\ iterations (wheel_search slices) = 100%nat.
Proof.
  unfold wheel_with. cbn [solution displayed nth]. intros N. cbv zeta.
  set (passed := take_while (accepts slices 1) (range 0 slices 1)).
  rewrite wheel_search_find in N.
  pose proof (chroma_loop_exhausted slices (range_from 100 100 (-1))
                {| hues := []; out_of_gamut := false; announced := None;
                   iterations := O; classifier_calls := O |}
                ltac:(discriminate) N) as X.
  cbv zeta in X. change (last (range_from 100 100 (-1)) 0) with 1 in X.
  rewrite length_range_from in X. cbn [iterations] in X.
  destruct X as (Hh & Ho & _ & Hi).
  change (range 100 0 (-1)) with (range_from 100 100 (-1)).
  unfold wheel_search. change (range 100 0 (-1)) with (range_from 100 100 (-1)).
  split; [exact Hh|]. split; [|split; [exact Ho|exact Hi]].
  pose proof (find_range_down (feasible slices) 100 100) as R. rewrite N in R.
  assert (F1 : feasible slices 1 = false) by (apply R; lia).
  apply take_while_length_lt in F1. rewrite length_range_up in F1.
  fold passed in F1. lia.
Qed.

Lemma wheel_without_solution_sample :
  solution (@wheel_with triple_colour 6) = None
  /\ nth 0 (displayed (@wheel_with triple_colour 6)) []
     = map (fun i => @ciecam16_to_hex triple_colour (selected 6 1 i))
           (take_while (@accepts triple_colour 6 1) (range 0 6 1))
  /\ iterations (@wheel_search triple_colour 6) = 100%nat.
Proof.
  assert (N : solution (@wheel_with triple_colour 6) = None) by (vm_compute; reflexivity).
  split; [exact N|].
  destruct (@wheel_without_solution triple_colour 6 N) as (Hh & _ & _ & Hi).
  split; [exact Hh|exact Hi].
Defined.

(** X11.  When the search settles on a chroma [c], it has made exactly
    [101 - c] turns of its outer loop, and between [(100 - c) + slices] and
    [(101 - c) * slices] calls of the classifier: at least one for each
    chroma it gave up, and one per slice for [c]. *)
Theorem wheel_search_cost {colour : Colour} (slices c : Z) :
  0 <= slices ->
  announced (wheel_search slices) = Some c ->
  Z.of_nat (iterations (wheel_search slices)) = 101 - c
  /\ (100 - c) + slices
     <= Z.of_nat (classifier_calls (wheel_search slices))
     <= (101 - c) * slices.
Proof.
  intros Hs E. rewrite wheel_search_find in E.
  pose proof (chroma_loop_settled slices 100 100
                {| hues := []; out_of_gamut := false; announced := None;
                   iterations := O; classifier_calls := O |} c E) as X.
  cbv zeta in X. rewrite length_range_up, Z2Nat.id in X by exact Hs.
  cbn [iterations classifier_calls] in X.
  unfold wheel_search. change (range 100 0 (-1)) with (range_from 100 100 (-1)).
  destruct X as (Hi & Hlo & Hhi). split; [lia|]. split; lia.
Qed.

Lemma wheel_search_cost_sample :
  0 <= 6
  /\ announced (@wheel_search sample_colour 6) = Some 70
  /\ Z.of_nat (iterations (@wheel_search sample_colour 6)) = 101 - 70
  /\ (100 - 70) + 6
     <= Z.of_nat (classifier_calls (@wheel_search sample_colour 6))
     <= (101 - 70) * 6.
Proof.
  assert (E : announced (@wheel_search sample_colour 6) = Some 70)
    by (vm_compute; reflexivity).
  split; [lia|]. split; [exact E|].
  apply (@wheel_search_cost sample_colour 6 70); [lia|exact E].
Defined.

(** X12.  With no slice to try ([slices <= 0]) the search settles at once:
    chroma 100 is announced after one turn, without a call of the
    classifier, and the hue row is empty. *)
Theorem wheel_search_no_slices {colour : Colour} (slices : Z) :
  slices <= 0 ->
  wheel_search slices
  = {| hues := []; out_of_gamut := false; announced := Some 100;
       iterations := 1; classifier_calls := 0 |}.
Proof.
  intros Hs. unfold wheel_search.
  change (range 100 0 (-1)) with (100 :: range_from 99 99 (-1)).
  generalize (range_from 99 99 (-1)). intros rest.
  cbn [chroma_loop]. rewrite range_up_nil by exact Hs. reflexivity.
Qed.

Lemma wheel_search_no_slices_0 :
  0 <= 0
  /\ @wheel_search sample_colour 0
     = {| hues := []; out_of_gamut := false; announced := Some 100;
          iterations := 1; classifier_calls := 0 |}.
Proof. split; [lia|]. apply (@wheel_search_no_slices sample_colour 0). lia. Defined.




(* ================================================================== *)
(** ** The pipeline through the appearance model and back *)



(* ================================================================== *)
(** ** Spectral hue sampling *)

Section SpectralLoop.

Context {colour : Colour}.

Variable wavelength_to_XYZ : Z -> result (list Qc).

Lemma wavelengths_loop_ok (xyz_of : Z -> list Qc) (todo : list Z) :
  forall hues,
  (forall w, In w todo -> wavelength_to_XYZ w = Ok (xyz_of w)) ->
  wavelengths_loop wavelength_to_XYZ todo hues
  = Ok (hues ++ map (fun w => swatch (xyz_of w)) todo).
Proof.
  induction todo as [|w rest IH]; intros hues A; cbn [wavelengths_loop map].
  - now rewrite app_nil_r.
  - unfold wavelength_to_ciecam16. rewrite (A w (or_introl eq_refl)). cbn [bind].
    rewrite IH by (intros v Hv; apply A; now right).
    now rewrite <- app_assoc.
Qed.

Lemma wavelengths_loop_raise (xyz_of : Z -> list Qc) (e : exn) (pre post : list Z) (w : Z) :
  forall hues,
  (forall v, In v pre -> wavelength_to_XYZ v = Ok (xyz_of v)) ->
  wavelength_to_XYZ w = Raise e ->
  wavelengths_loop wavelength_to_XYZ (pre ++ w :: post) hues = Raise e.
Proof.
  induction pre as [|v rest IH]; intros hues A R; cbn [app wavelengths_loop].
  - unfold wavelength_to_ciecam16. now rewrite R.
  - unfold wavelength_to_ciecam16 at 1. rewrite (A v (or_introl eq_refl)). cbn [bind].
    apply IH; [|exact R]. intros u Hu. apply A. now right.
Qed.

End SpectralLoop.

(** X15.  [interesting_wavelengths] converts its nine wavelengths in the
    order of its list.  If the package gives tristimulus values for all of
    them, what goes to the display is nine strings, one per wavelength in
    that order, each a [#] followed by [ciecam16_to_hex] of the wavelength's
    specification.  If the package raises for one of them, having accepted
    those before it, that error ends [interesting_wavelengths] and nothing
    goes to the display. *)
Theorem interesting_wavelengths_outcome {colour : Colour}
    (wavelength_to_XYZ : Z -> result (list Qc)) (xyz_of : Z -> list Qc) :
  ((forall w, In w wavelengths -> wavelength_to_XYZ w = Ok (xyz_of w)) ->
   interesting_wavelengths wavelength_to_XYZ
   = Ok (map (fun w => swatch (xyz_of w)) [417; 448; 450; 483; 514; 545; 568; 599; 630]))
  /\ (forall pre w post e,
        wavelengths = pre ++ w :: post ->
        (forall v, In v pre -> wavelength_to_XYZ v = Ok (xyz_of v)) ->
        wavelength_to_XYZ w = Raise e ->
        interesting_wavelengths wavelength_to_XYZ = Raise e).
Proof.
  split.
  - intros A. unfold interesting_wavelengths.
    now rewrite (wavelengths_loop_ok wavelength_to_XYZ xyz_of) by exact A.
  - intros pre w post e Split A R. unfold interesting_wavelengths. rewrite Split.
    now apply (wavelengths_loop_raise wavelength_to_XYZ xyz_of).
Qed.

Lemma interesting_wavelengths_outcome_sample :
  @interesting_wavelengths sample_colour
    (fun w => if w <? 450 then Ok [of_Z w; of_Z 50; of_Z 0] else Raise ValueError)
  = Raise ValueError.
Proof.
  apply (proj2 (@interesting_wavelengths_outcome sample_colour
                  (fun w => if w <? 450 then Ok [of_Z w; of_Z 50; of_Z 0] else Raise ValueError)
                  (fun w => [of_Z w; of_Z 50; of_Z 0]))
               [417; 448] 450 [483; 514; 545; 568; 599; 630] ValueError).
  - reflexivity.
  - intros v [<-|[<-|[]]]; reflexivity.
  - reflexivity.
Defined.

(* ================================================================== *)
(** ** [rgb_to_hex] in binary64: the channel that is not a number *)

Lemma binary64_clamp_loop_app (rgb1 rgb2 : list float) :
  forall clamped,
  Binary64.clamp_loop (rgb1 ++ rgb2) clamped
  = (let* clamped' := Binary64.clamp_loop rgb1 clamped in
     Binary64.clamp_loop rgb2 clamped').
Proof.
  induction rgb1 as [|val rest IH]; intros clamped; cbn [app Binary64.clamp_loop bind].
  - reflexivity.
  - destruct (PrimFloat.leb val (Binary64.of_int 0)); [apply IH|].
    destruct (PrimFloat.leb (Binary64.of_int 1) val); [apply IH|].
    destruct (Binary64.round (PrimFloat.mul val (Binary64.of_int 255))) as [k|e];
      cbn [bind]; [apply IH|reflexivity].
Qed.

Lemma binary64_clamp_loop_nan (rest : list float) (clamped : list Z) :
  Binary64.clamp_loop (PrimFloat.nan :: rest) clamped = Raise ValueError.
Proof.
  cbn [Binary64.clamp_loop].
  change (PrimFloat.leb PrimFloat.nan (Binary64.of_int 0)) with false.
  change (PrimFloat.leb (Binary64.of_int 1) PrimFloat.nan) with false.
  change (Binary64.round (PrimFloat.mul PrimFloat.nan (Binary64.of_int 255)))
    with (@Raise Z ValueError).
  reflexivity.
Qed.

(** X16.  In binary64 [rgb_to_hex] is not total: a NaN channel that comes
    after channels it could convert makes it raise [ValueError], whatever
    follows. *)
Theorem binary64_rgb_to_hex_nan (before after : list float) (s : string) :
  Binary64.rgb_to_hex before = Ok s ->
  Binary64.rgb_to_hex (before ++ PrimFloat.nan :: after) = Raise ValueError.
Proof.
  unfold Binary64.rgb_to_hex. intros E.
  rewrite binary64_clamp_loop_app.
  destruct (Binary64.clamp_loop before []) as [clamped|e]; [|discriminate E].
  cbn [bind]. now rewrite binary64_clamp_loop_nan.
Qed.

Lemma binary64_rgb_to_hex_nan_sample :
  Binary64.rgb_to_hex [0.5%float] = Ok "80"%string
  /\ Binary64.rgb_to_hex ([0.5%float] ++ PrimFloat.nan :: [1%float]) = Raise ValueError.
Proof.
  assert (E : Binary64.rgb_to_hex [0.5%float] = Ok "80"%string) by (vm_compute; reflexivity).
  split; [exact E|]. exact (binary64_rgb_to_hex_nan [0.5%float] [1%float] "80" E).
Defined.
